(** * ThreadCommissioner.h: the umbrella header of CThreadCommissioner

    The repository's only source file is
    [Sources/CThreadCommissioner/include/ThreadCommissioner.h].  It has no
    function bodies: what it "does" is what a C or C++ translation unit gets
    when the preprocessor expands it.  The development therefore embeds

    - the text of the header, line by line ([header_lines]);
    - the lexical layer a C front end applies to it (comment removal,
      directive recognition, tokens);
    - the preprocessor's conditional-inclusion machine, run over the header
      from an arbitrary macro environment;
    - a parser for the external declarations that reach the compiler,
      with the linkage rules of C and C++.

    Macro environments are finite sets of names (stdpp's [gset string]). *)

From Stdlib Require Import String Ascii List Bool Arith Lia.
From stdpp Require Import base decidable option strings gmap.
Import ListNotations.

Local Open Scope string_scope.
Local Open Scope list_scope.

(** ** The source text *)

Module Header.

(** The double-quote character, used by the linkage specification on line 24. *)
Definition dquote : ascii := "034"%char.

(** Line 24 of the header: the opening of the linkage specification. *)
Definition line_extern_c : string :=
  String.append "extern "
    (String dquote (String.append "C" (String dquote " {"))).

(** The 36 lines of [ThreadCommissioner.h], in order, without their line
    terminators.  The last line is not followed by a newline in the file. *)
Definition header_lines : list string :=
  [ "//"
  ; "//  ThreadCommissioner.h"
  ; "//  ThreadCommissioner"
  ; "//"
  ; "//  Umbrella header for Thread Commissioner package"
  ; "//"
  ; ""
  ; "#ifndef ThreadCommissioner_h"
  ; "#define ThreadCommissioner_h"
  ; ""
  ; "// Import from mbedTLS framework"
  ; "#import <mbedtls/ssl.h>"
  ; "#import <mbedtls/net_sockets.h>"
  ; "#import <mbedtls/entropy.h>"
  ; "#import <mbedtls/ctr_drbg.h>"
  ; "#import <mbedtls/error.h>"
  ; "#import <mbedtls/debug.h>"
  ; "#import <mbedtls/timing.h>"
  ; "#import <mbedtls/ssl_ciphersuites.h>"
  ; ""
  ; "#include <stddef.h>"
  ; ""
  ; "#ifdef __cplusplus"
  ; line_extern_c
  ; "#endif"
  ; ""
  ; "// EC-JPAKE password function declaration"
  ; "int mbedtls_ssl_set_hs_ecjpake_password(mbedtls_ssl_context *ssl,"
  ; "                                        const unsigned char *pw,"
  ; "                                        size_t pw_len);"
  ; ""
  ; "#ifdef __cplusplus"
  ; "}"
  ; "#endif"
  ; ""
  ; "#endif /* ThreadCommissioner_h */"
  ].

(** The file as a sequence of characters: the lines joined by line feeds. *)
Definition newline : ascii := "010"%char.

Definition header_text : string :=
  String.concat (String newline EmptyString) header_lines.

(** Splitting a text at its line feeds; the inverse of the join above. *)
Fixpoint split_lines_aux (cur : string) (s : string) : list string :=
  match s with
  | EmptyString => [String.rev cur]
  | String c rest =>
      if Ascii.eqb c newline
      then String.rev cur :: split_lines_aux EmptyString rest
      else split_lines_aux (String c cur) rest
  end.

Definition split_lines (s : string) : list string :=
  split_lines_aux EmptyString s.

End Header.

(** ** The lexical layer *)

Module Lex.

Import Header.

Local Open Scope char_scope.

Definition is_space (c : ascii) : bool :=
  Ascii.eqb c " " || Ascii.eqb c "009" || Ascii.eqb c "011"
  || Ascii.eqb c "012" || Ascii.eqb c "013".

Definition is_digit (c : ascii) : bool :=
  Ascii.leb "0" c && Ascii.leb c "9".

Definition is_letter (c : ascii) : bool :=
  (Ascii.leb "a" c && Ascii.leb c "z")
  || (Ascii.leb "A" c && Ascii.leb c "Z")
  || Ascii.eqb c "_".

Definition is_ident_char (c : ascii) : bool := is_letter c || is_digit c.

Local Close Scope char_scope.

(** *** Comment removal

    Translation phase 3: every comment is replaced by one space.  The
    scanner walks a line character by character; only the block-comment mode
    survives the end of a line. *)

Inductive scan_mode : Type :=
| InCode            (* ordinary text *)
| SeenSlash         (* a slash that may open a comment *)
| InLineComment     (* after two slashes, up to the end of the line *)
| InBlock           (* inside a block comment *)
| InBlockStar       (* inside a block comment, just after a star *)
| InLiteral (q : ascii)      (* inside a string or character literal *)
| InLiteralEsc (q : ascii).  (* just after a backslash in a literal *)

Definition slash : ascii := "/"%char.
Definition star : ascii := "*"%char.
Definition squote : ascii := "039"%char.
Definition backslash : ascii := "092"%char.
Definition blank : ascii := " "%char.

Definition one (c : ascii) : string := String c EmptyString.

(** One step of the scanner: the next mode and the characters it emits. *)
Definition scan_step (m : scan_mode) (c : ascii) : scan_mode * string :=
  match m with
  | InCode =>
      if Ascii.eqb c slash then (SeenSlash, EmptyString)
      else if Ascii.eqb c dquote || Ascii.eqb c squote then (InLiteral c, one c)
      else (InCode, one c)
  | SeenSlash =>
      if Ascii.eqb c slash then (InLineComment, one blank)
      else if Ascii.eqb c star then (InBlock, one blank)
      else if Ascii.eqb c dquote || Ascii.eqb c squote
           then (InLiteral c, String slash (one c))
      else (InCode, String slash (one c))
  | InLineComment => (InLineComment, EmptyString)
  | InBlock =>
      if Ascii.eqb c star then (InBlockStar, EmptyString)
      else (InBlock, EmptyString)
  | InBlockStar =>
      if Ascii.eqb c slash then (InCode, EmptyString)
      else if Ascii.eqb c star then (InBlockStar, EmptyString)
      else (InBlock, EmptyString)
  | InLiteral q =>
      if Ascii.eqb c q then (InCode, one c)
      else if Ascii.eqb c backslash then (InLiteralEsc q, one c)
      else (InLiteral q, one c)
  | InLiteralEsc q => (InLiteral q, one c)
  end.

(** What is left to emit, and the mode the next line starts in, when the
    line ends. *)
Definition scan_eol (m : scan_mode) : scan_mode * string :=
  match m with
  | SeenSlash => (InCode, one slash)
  | InBlock | InBlockStar => (InBlock, EmptyString)
  | _ => (InCode, EmptyString)
  end.

Fixpoint strip_comments (m : scan_mode) (s : string) : string * scan_mode :=
  match s with
  | EmptyString => let '(m', out) := scan_eol m in (out, m')
  | String c rest =>
      let '(m1, out) := scan_step m c in
      let '(tail, m2) := strip_comments m1 rest in
      (String.append out tail, m2)
  end.

(** *** White space *)

Fixpoint ltrim (s : string) : string :=
  match s with
  | EmptyString => EmptyString
  | String c rest => if is_space c then ltrim rest else s
  end.

Definition trim (s : string) : string :=
  String.rev (ltrim (String.rev (ltrim s))).

Definition is_empty (s : string) : bool :=
  match s with EmptyString => true | _ => false end.

(** The longest prefix of identifier characters, and what follows it. *)
Fixpoint span_ident (s : string) : string * string :=
  match s with
  | EmptyString => (EmptyString, EmptyString)
  | String c rest =>
      if is_ident_char c
      then let '(w, r) := span_ident rest in (String c w, r)
      else (EmptyString, s)
  end.

(** The prefix up to, and not including, the first occurrence of [d];
    [None] when [d] does not occur. *)
Fixpoint until_char (d : ascii) (s : string) : option string :=
  match s with
  | EmptyString => None
  | String c rest =>
      if Ascii.eqb c d then Some EmptyString
      else match until_char d rest with
           | Some w => Some (String c w)
           | None => None
           end
  end.

(** *** Tokens of the code lines *)

Inductive token : Type :=
| TWord (w : string)      (* identifier, keyword or number *)
| TString (s : string)    (* string literal, without its quotes *)
| TPunct (c : ascii).     (* any other character *)

Definition token_eqb (a b : token) : bool :=
  match a, b with
  | TWord x, TWord y => String.eqb x y
  | TString x, TString y => String.eqb x y
  | TPunct x, TPunct y => Ascii.eqb x y
  | _, _ => false
  end.

Inductive lex_state : Type :=
| LIdle
| LWord (acc : string)     (* the word read so far, reversed *)
| LStr (acc : string).     (* the literal read so far, reversed *)

(** Reading a character with no token in progress. *)
Definition lex_idle (c : ascii) : lex_state * list token :=
  if is_space c then (LIdle, [])
  else if is_ident_char c then (LWord (one c), [])
  else if Ascii.eqb c dquote then (LStr EmptyString, [])
  else (LIdle, [TPunct c]).

Definition lex_step (st : lex_state) (c : ascii) : lex_state * list token :=
  match st with
  | LIdle => lex_idle c
  | LWord acc =>
      if is_ident_char c then (LWord (String c acc), [])
      else let '(st', ts) := lex_idle c in (st', TWord (String.rev acc) :: ts)
  | LStr acc =>
      if Ascii.eqb c dquote then (LIdle, [TString (String.rev acc)])
      else (LStr (String c acc), [])
  end.

Definition lex_flush (st : lex_state) : list token :=
  match st with
  | LIdle => []
  | LWord acc => [TWord (String.rev acc)]
  | LStr acc => [TString (String.rev acc)]
  end.

Fixpoint tokenize_from (st : lex_state) (s : string) : list token :=
  match s with
  | EmptyString => lex_flush st
  | String c rest =>
      let '(st', ts) := lex_step st c in ts ++ tokenize_from st' rest
  end.

Definition tokenize (s : string) : list token := tokenize_from LIdle s.

(** *** Lines *)

Inductive directive : Type :=
| DIfndef (x : string)
| DIfdef (x : string)
| DDefine (x : string)
| DEndif
| DInclude (h : string)    (* #include <h> *)
| DImport (h : string)     (* #import <h>: as #include, at most once per unit *)
| DOther (name : string).  (* anything this header does not use *)

Inductive line : Type :=
| Blank
| Comment
| Directive (d : directive)
| Code (ts : list token).

(** The name between the angle brackets or quotes of an include operand. *)
Definition header_name (arg : string) : option string :=
  match arg with
  | String c rest =>
      if Ascii.eqb c "<"%char then until_char ">"%char rest
      else if Ascii.eqb c dquote then until_char dquote rest
      else None
  | EmptyString => None
  end.

(** [parse_directive s]: the directive whose text after the [#] is [s]. *)
Definition parse_directive (s : string) : directive :=
  let '(name, rest) := span_ident (ltrim s) in
  let arg := trim rest in
  let macro := fst (span_ident arg) in
  if String.eqb name "ifndef" then
    (if is_empty macro then DOther name else DIfndef macro)
  else if String.eqb name "ifdef" then
    (if is_empty macro then DOther name else DIfdef macro)
  else if String.eqb name "define" then
    (if is_empty macro then DOther name else DDefine macro)
  else if String.eqb name "endif" then DEndif
  else if String.eqb name "include" then
    match header_name arg with Some h => DInclude h | None => DOther name end
  else if String.eqb name "import" then
    match header_name arg with Some h => DImport h | None => DOther name end
  else DOther name.

(** One source line, read in scanner mode [m]: its kind and the mode the
    next line starts in. *)
Definition classify (m : scan_mode) (raw : string) : line * scan_mode :=
  let '(text, m') := strip_comments m raw in
  let t := trim text in
  let kind :=
    match t with
    | EmptyString =>
        match m, trim raw with
        | InCode, EmptyString => Blank
        | _, _ => Comment
        end
    | String c rest =>
        if Ascii.eqb c "#"%char then Directive (parse_directive rest)
        else Code (tokenize t)
    end in
  (kind, m').

Fixpoint classify_from (m : scan_mode) (raws : list string) : list line :=
  match raws with
  | [] => []
  | raw :: rest =>
      let '(l, m') := classify m raw in l :: classify_from m' rest
  end.

Definition classify_lines (raws : list string) : list line :=
  classify_from InCode raws.

(** The header, line by line, as the preprocessor reads it. *)
Definition header : list line := classify_lines header_lines.

(** The same, evaluated. *)
Definition header_ast : list line := Eval vm_compute in header.

(** The tokens of all code lines, whatever conditional group they are in. *)
Definition code_tokens (ls : list line) : list token :=
  flat_map (λ l, match l with Code ts => ts | _ => [] end) ls.

(** The kinds of line the specification counts. *)
Inductive kind : Type :=
| KInclude      (* #include or #import *)
| KGuard        (* #ifndef, #ifdef, #define, #endif *)
| KCode         (* text for the compiler *)
| KComment
| KBlank
| KOther.       (* any other directive *)

Definition kind_of (l : line) : kind :=
  match l with
  | Blank => KBlank
  | Comment => KComment
  | Code _ => KCode
  | Directive (DInclude _) | Directive (DImport _) => KInclude
  | Directive (DIfndef _) | Directive (DIfdef _)
  | Directive (DDefine _) | Directive DEndif => KGuard
  | Directive (DOther _) => KOther
  end.

Definition kind_eqb (a b : kind) : bool :=
  match a, b with
  | KInclude, KInclude | KGuard, KGuard | KCode, KCode
  | KComment, KComment | KBlank, KBlank | KOther, KOther => true
  | _, _ => false
  end.

Definition count_kind (k : kind) (ls : list line) : nat :=
  length (filter (λ l, kind_eqb k (kind_of l)) ls).

End Lex.

(** ** The preprocessor *)

Module Cpp.

Import Header Lex.

(** The two macros the header tests. *)
Definition ThreadCommissioner_h : string := "ThreadCommissioner_h".
Definition __cplusplus : string := "__cplusplus".

(** What the header hands to the compiler, in order: the contents of an
    external header brought into scope, or the tokens of one of its own
    code lines. *)
Inductive item : Type :=
| Hdr (h : string)
| Src (ts : list token).

(** A macro environment records which names are defined; that is all
    [#ifdef] and [#ifndef] look at.  The replacement lists are not kept, so
    the machine below hands code lines on as they stand.  That is what the
    preprocessor does when no word of the line is the name of a macro
    ([plain_code] below); results about the content of the code lines are
    stated under that condition. *)
Definition defined (x : string) (m : gset string) : bool :=
  bool_decide (x ∈ m).

(** The stack of open conditional groups; each entry tells whether the
    group, all enclosing groups included, is being kept. *)
Definition active (stk : list bool) : bool :=
  match stk with
  | [] => true
  | b :: _ => b
  end.

(** The language of a translation unit shows in its macro environment: a
    C++ compiler predefines [__cplusplus], a C compiler leaves it
    undefined. *)
Inductive language : Type := LangC | LangCxx.

Definition predefined (lang : language) : gset string :=
  match lang with LangC => ∅ | LangCxx => {[__cplusplus]} end.

Definition language_of (m : gset string) : language :=
  if defined __cplusplus m then LangCxx else LangC.

Definition fits (lang : language) (m : gset string) : Prop :=
  __cplusplus ∈ m ↔ lang = LangCxx.

Section Preprocessor.

(** The external headers are not part of the repository.  [ext h m] is the
    macro environment after the toolchain has handled [<h>] from
    environment [m], whether it entered the file, or skipped it (an
    [#import] of a file already seen, a file with its own guard). *)
Variable ext : string → gset string → gset string.

(** The state of the preprocessor inside a file: the open conditional
    groups, the macros defined, and what it has emitted so far. *)
Record pstate : Type := mk_pstate
  { ps_open : list bool; ps_macros : gset string; ps_out : list item }.

Definition emit (i : item) (s : pstate) : pstate :=
  mk_pstate (ps_open s) (ps_macros s) (ps_out s ++ [i]).

Definition push (b : bool) (s : pstate) : pstate :=
  mk_pstate (b :: ps_open s) (ps_macros s) (ps_out s).

Definition with_macros (m : gset string) (s : pstate) : pstate :=
  mk_pstate (ps_open s) m (ps_out s).

(** One line.  Fails on an [#endif] without its opening and on a directive
    outside the six the header uses.  A code line is emitted without macro
    replacement; see [step_replacing] for the machine that replaces. *)
Definition step (l : line) (s : pstate) : option pstate :=
  let on := active (ps_open s) in
  match l with
  | Blank | Comment => Some s
  | Code ts => Some (if on then emit (Src ts) s else s)
  | Directive (DIfndef x) =>
      Some (push (on && negb (defined x (ps_macros s))) s)
  | Directive (DIfdef x) =>
      Some (push (on && defined x (ps_macros s)) s)
  | Directive DEndif =>
      match ps_open s with
      | [] => None
      | _ :: open' => Some (mk_pstate open' (ps_macros s) (ps_out s))
      end
  | Directive (DDefine x) =>
      Some (if on then with_macros ({[x]} ∪ ps_macros s) s else s)
  | Directive (DInclude h) | Directive (DImport h) =>
      Some (if on
            then emit (Hdr h) (with_macros (ext h (ps_macros s)) s)
            else s)
  | Directive (DOther _) => None
  end.

Fixpoint run (ls : list line) (s : pstate) : option pstate :=
  match ls with
  | [] => Some s
  | l :: rest => s' ← step l s; run rest s'
  end.

(** Expanding a file where a translation unit includes it.  The
    conditional groups are those of the file: none is open at its start,
    and one left open at its end is an error. *)
Definition expand_file (ls : list line) (m : gset string)
  : option (gset string * list item) :=
  s ← run ls (mk_pstate [] m []);
  match ps_open s with
  | [] => Some (ps_macros s, ps_out s)
  | _ :: _ => None
  end.

Definition expand (m : gset string) : option (gset string * list item) :=
  expand_file header m.

(** A translation unit in the making: the macros defined so far and what
    has reached the compiler so far. *)
Record tu : Type := mk_tu { tu_macros : gset string; tu_items : list item }.

Definition include_file (ls : list line) (st : tu) : option tu :=
  '(m', its) ← expand_file ls (tu_macros st);
  Some (mk_tu m' (tu_items st ++ its)).

Definition include_header (st : tu) : option tu := include_file header st.

(** [n] inclusions in a row. *)
Fixpoint include_times (n : nat) (st : tu) : option tu :=
  match n with
  | 0 => Some st
  | S k => st' ← include_header st; include_times k st'
  end.

(** External headers leave macro [x] as they found it. *)
Definition preserves (x : string) : Prop :=
  ∀ h m, x ∈ ext h m ↔ x ∈ m.

End Preprocessor.

(** The external headers the file names, in order. *)
Definition names_included (ls : list line) : list string :=
  flat_map (λ l, match l with
                 | Directive (DInclude h) | Directive (DImport h) => [h]
                 | _ => []
                 end) ls.

Definition included_headers : list string :=
  Eval vm_compute in names_included header.

(** The macros after a first inclusion from environment [m]: the guard is
    defined, then each external header has had its effect. *)
Definition after_includes (ext : string → gset string → gset string)
    (m : gset string) : gset string :=
  foldl (λ acc h, ext h acc) ({[ThreadCommissioner_h]} ∪ m) included_headers.

(** What a unit of language [lang] that has not seen the header gets from
    it.  External headers with no macro effect are used to compute it;
    [expand_fresh] below shows that any others give the same. *)
Definition own_items (lang : language) : list item :=
  default [] (snd <$> expand (λ _ m, m) (predefined lang)).

(** The headers an item list brings into scope, and the code tokens it
    carries. *)
Definition headers_of (its : list item) : list string :=
  flat_map (λ i, match i with Hdr h => [h] | Src _ => [] end) its.

Definition tokens_of (its : list item) : list token :=
  flat_map (λ i, match i with Hdr _ => [] | Src ts => ts end) its.

(** The code lines it carries, one token list per line. *)
Definition sources_of (its : list item) : list (list token) :=
  flat_map (λ i, match i with Hdr _ => [] | Src ts => [ts] end) its.

(** ** Macro replacement in code lines *)

(** [plain_code ext m]: on a first inclusion from [m], no word of the
    header's code lines is the name of a macro where those lines are
    reached.  All of them come after the last include, where the
    environment is [after_includes ext m].  An includer that defines, say,
    [size_t] or [pw_len] as a macro is outside this condition. *)
Definition plain_code (ext : string → gset string → gset string)
    (m : gset string) : Prop :=
  ∀ w, TWord w ∈ code_tokens header → w ∉ after_includes ext m.

(** The same as a check. *)
Definition plain_codeb (ext : string → gset string → gset string)
    (m : gset string) : bool :=
  forallb (λ t, match t with
                | TWord w => negb (defined w (after_includes ext m))
                | _ => true
                end) (code_tokens header).

Section Replacing.

Variable ext : string → gset string → gset string.

(** [replace m ts]: the code line [ts] after macro replacement in
    environment [m].  What a macro is replaced by is not part of the
    environment, so the function is the toolchain's. *)
Variable replace : gset string → list token → list token.

(** The one law used: a line none of whose words is a macro is left as it
    is. *)
Definition leaves_plain_lines : Prop :=
  ∀ m ts, (∀ w, TWord w ∈ ts → w ∉ m) → replace m ts = ts.

(** The machine with macro replacement: as [step], the code line replaced
    first. *)
Definition step_replacing (l : line) (s : pstate) : option pstate :=
  match l with
  | Code ts => step ext (Code (replace (ps_macros s) ts)) s
  | _ => step ext l s
  end.

Fixpoint run_replacing (ls : list line) (s : pstate) : option pstate :=
  match ls with
  | [] => Some s
  | l :: rest => s' ← step_replacing l s; run_replacing rest s'
  end.

Definition expand_replacing (m : gset string)
  : option (gset string * list item) :=
  s ← run_replacing header (mk_pstate [] m []);
  match ps_open s with
  | [] => Some (ps_macros s, ps_out s)
  | _ :: _ => None
  end.

Definition include_header_replacing (st : tu) : option tu :=
  '(m', its) ← expand_replacing (tu_macros st);
  Some (mk_tu m' (tu_items st ++ its)).

Fixpoint include_times_replacing (n : nat) (st : tu) : option tu :=
  match n with
  | 0 => Some st
  | S k => st' ← include_header_replacing st; include_times_replacing k st'
  end.

End Replacing.

End Cpp.

(** ** External declarations *)

Module Decls.

Import Header Lex Cpp.

Inductive linkage : Type := LinkC | LinkCxx.

(** A type as the header spells it: the specifier words in order, whether
    [const] is among them, and the number of pointer stars that follow. *)
Record ctype : Type := mk_ctype
  { ty_const : bool; ty_base : list string; ty_stars : nat }.

Record param : Type := mk_param { p_type : ctype; p_name : string }.

Record prototype : Type := mk_proto
  { f_ret : ctype; f_name : string; f_params : list param }.

Record decl : Type := mk_decl
  { d_proto : prototype; d_has_body : bool; d_linkage : linkage }.

Definition is_punct (c : ascii) (t : token) : bool :=
  match t with TPunct d => Ascii.eqb c d | _ => false end.

(** The tokens before the first punctuation [c], and those after it. *)
Fixpoint split_at (c : ascii) (ts : list token)
  : option (list token * list token) :=
  match ts with
  | [] => None
  | t :: rest =>
      if is_punct c t then Some ([], rest)
      else '(pre, post) ← split_at c rest; Some (t :: pre, post)
  end.

(** The groups separated by commas. *)
Fixpoint split_commas (ts : list token) : list (list token) :=
  match ts with
  | [] => [[]]
  | t :: rest =>
      match split_commas rest with
      | [] => [[t]]
      | g :: gs => if is_punct "," t then [] :: g :: gs else (t :: g) :: gs
      end
  end.

(** The leading pointer stars of a token list, and what follows. *)
Fixpoint leading_stars (ts : list token) : nat * list token :=
  match ts with
  | TPunct c :: rest =>
      if Ascii.eqb c "*"
      then let '(n, r) := leading_stars rest in (S n, r)
      else (0, ts)
  | _ => (0, ts)
  end.

Fixpoint words (ts : list token) : option (list string) :=
  match ts with
  | [] => Some []
  | TWord w :: rest => ws ← words rest; Some (w :: ws)
  | _ => None
  end.

Definition is_const (w : string) : bool := String.eqb w "const".

(** [specifiers, stars, name]: a parameter, or a function's return type and
    name.  Read from the right: the name, the stars before it, and before
    them at least one specifier word. *)
Definition parse_typed_name (ts : list token) : option (ctype * string) :=
  match rev ts with
  | TWord name :: before =>
      let '(n, specs) := leading_stars before in
      ws ← words (rev specs);
      let base := filter (λ w, negb (is_const w)) ws in
      match base with
      | [] => None
      | _ :: _ => Some (mk_ctype (existsb is_const ws) base n, name)
      end
  | _ => None
  end.

Fixpoint parse_each (gs : list (list token)) : option (list param) :=
  match gs with
  | [] => Some []
  | g :: rest =>
      '(ty, name) ← parse_typed_name g;
      ps ← parse_each rest;
      Some (mk_param ty name :: ps)
  end.

(** A parameter list: empty, [void], or typed names separated by commas. *)
Definition parse_params (ts : list token) : option (list param) :=
  match ts with
  | [] => Some []
  | [TWord w] => if String.eqb w "void" then Some [] else None
  | _ => parse_each (split_commas ts)
  end.

(** The tokens after the closing brace that matches [depth] open ones. *)
Fixpoint skip_body (depth : nat) (ts : list token) : option (list token) :=
  match ts with
  | [] => None
  | t :: rest =>
      if is_punct "{" t then skip_body (S depth) rest
      else if is_punct "}" t then
        match depth with
        | 0 => Some rest
        | S d => skip_body d rest
        end
      else skip_body depth rest
  end.

(** One function declaration at the head of [ts], with linkage [lk]: a
    prototype when a semicolon follows the parameter list, a definition when
    a body does. *)
Definition parse_function (lk : linkage) (ts : list token)
  : option (decl * list token) :=
  '(head, after) ← split_at "(" ts;
  '(ptoks, tail) ← split_at ")" after;
  '(ret, name) ← parse_typed_name head;
  ps ← parse_params ptoks;
  let p := mk_proto ret name ps in
  match tail with
  | TPunct c :: rest =>
      if Ascii.eqb c ";" then Some (mk_decl p false lk, rest)
      else if Ascii.eqb c "{" then
        rest' ← skip_body 0 rest; Some (mk_decl p true lk, rest')
      else None
  | _ => None
  end.

(** The linkage a language gives a declaration outside any linkage
    specification. *)
Definition default_linkage (lang : language) : linkage :=
  match lang with LangC => LinkC | LangCxx => LinkCxx end.

Definition current_linkage (lang : language) (open : list linkage) : linkage :=
  match open with
  | [] => default_linkage lang
  | lk :: _ => lk
  end.

Definition linkage_named (s : string) : option linkage :=
  if String.eqb s "C" then Some LinkC
  else if String.eqb s "C++" then Some LinkCxx
  else None.

(** [parse_unit fuel lang open ts]: the function declarations of [ts], read
    in language [lang] inside the open linkage specifications [open].  A
    linkage specification is C++ only; anything that is neither one nor a
    function declaration is rejected. *)
Fixpoint parse_unit (fuel : nat) (lang : language) (open : list linkage)
    (ts : list token) : option (list decl) :=
  match fuel with
  | 0 => None
  | S fuel' =>
      match ts with
      | [] => match open with [] => Some [] | _ :: _ => None end
      | TPunct c :: rest =>
          if Ascii.eqb c "}" then
            match open with
            | [] => None
            | _ :: open' => parse_unit fuel' lang open' rest
            end
          else None
      | TWord w :: TString s :: TPunct c :: rest =>
          if String.eqb w "extern" && Ascii.eqb c "{" then
            match lang with
            | LangC => None
            | LangCxx =>
                lk ← linkage_named s;
                parse_unit fuel' lang (lk :: open) rest
            end
          else None
      | _ =>
          '(d, rest) ← parse_function (current_linkage lang open) ts;
          ds ← parse_unit fuel' lang open rest;
          Some (d :: ds)
      end
  end.

(** Every step consumes a token, so one more than the number of tokens is
    fuel enough. *)
Definition parse (lang : language) (ts : list token) : option (list decl) :=
  parse_unit (S (length ts)) lang [] ts.

(** The declarations a translation unit of language [lang] gets from the
    header's own code lines. *)
Definition declarations (lang : language) (its : list item)
  : option (list decl) :=
  parse lang (tokens_of its).

Section Symbols.

(** The name a C++ compiler gives a function with C++ linkage; it depends
    on the platform's ABI and is left open. *)
Variable mangle : prototype → string.

(** The external symbol a declaration refers to. *)
Definition symbol (d : decl) : string :=
  match d_linkage d with
  | LinkC => f_name (d_proto d)
  | LinkCxx => mangle (d_proto d)
  end.

End Symbols.

End Decls.

(** ** Scoping and visibility *)

Module Scope.

Import Header Lex Cpp Decls.

(** The declarations in scope after an item list, when header [h] declares
    [contents h]. *)
Definition visible {D : Type} (contents : string → list D)
    (its : list item) : list D :=
  flat_map (λ i, match i with Hdr h => contents h | Src _ => [] end) its.

Definition mentions (w : string) (ts : list token) : bool :=
  existsb (token_eqb (TWord w)) ts.

(** [declared_before h w seen its]: every code line of [its] that mentions
    the word [w] comes after header [h]; [seen] tells whether [h] is already
    in scope at the start. *)
Fixpoint declared_before (h w : string) (seen : bool) (its : list item)
  : bool :=
  match its with
  | [] => true
  | Hdr h' :: rest => declared_before h w (seen || String.eqb h h') rest
  | Src ts :: rest =>
      (seen || negb (mentions w ts)) && declared_before h w seen rest
  end.

(** Words that would make a code line more than a function declaration:
    type definitions and control flow. *)
Definition logic_keywords : list string :=
  [ "struct"; "union"; "enum"; "typedef"; "class"
  ; "if"; "else"; "for"; "while"; "do"; "switch"; "case"; "default"
  ; "goto"; "return"; "break"; "continue" ].

Definition is_logic_token (t : token) : bool :=
  match t with
  | TWord w => existsb (String.eqb w) logic_keywords
  | TPunct c => Ascii.eqb c "="
  | TString _ => false
  end.

End Scope.

(** ** The specification's side *)

Module Spec.

Import Header Lex Cpp Decls.

(** The signature as the external-interfaces section prints it. *)
Definition signature_lines : list string :=
  [ "int mbedtls_ssl_set_hs_ecjpake_password("
  ; "    mbedtls_ssl_context *ssl,"
  ; "    const unsigned char *pw,"
  ; "    size_t pw_len);"
  ].

Definition signature : option prototype :=
  match parse LangC (code_tokens (classify_lines signature_lines)) with
  | Some [d] => Some (d_proto d)
  | _ => None
  end.

(** The same in the words of the claim: the name, the return type and the
    three parameter types, in order. *)
Definition function_name : string := "mbedtls_ssl_set_hs_ecjpake_password".

Definition int_type : ctype := mk_ctype false ["int"] 0.
Definition context_pointer : ctype := mk_ctype false ["mbedtls_ssl_context"] 1.
Definition const_bytes_pointer : ctype := mk_ctype true ["unsigned"; "char"] 1.
Definition size_type : ctype := mk_ctype false ["size_t"] 0.

Definition parameter_types : list ctype :=
  [context_pointer; const_bytes_pointer; size_type].

(** Both together, with the parameter names of the printed signature. *)
Definition prototype_in_words : prototype :=
  mk_proto int_type function_name
    [ mk_param context_pointer "ssl"
    ; mk_param const_bytes_pointer "pw"
    ; mk_param size_type "pw_len" ].

(** The headers of the external TLS library the header is said to
    re-export. *)
Definition mbedtls_headers : list string :=
  [ "mbedtls/ssl.h"; "mbedtls/net_sockets.h"; "mbedtls/entropy.h"
  ; "mbedtls/ctr_drbg.h"; "mbedtls/error.h"; "mbedtls/debug.h"
  ; "mbedtls/timing.h"; "mbedtls/ssl_ciphersuites.h" ].

(** The three kinds of content the implementation budget names: include
    directives, guard macros, and the extern declaration. *)
Definition budget_kind (k : kind) : bool :=
  match k with
  | KInclude | KGuard | KCode => true
  | _ => false
  end.

(** The budget's kinds, with comments and blank lines. *)
Definition layout_kind (k : kind) : bool :=
  match k with
  | KInclude | KGuard | KCode | KComment | KBlank => true
  | KOther => false
  end.

End Spec.

(** ** A toolchain for the examples *)

Module Sample.

Import Header Lex Cpp Decls.

(** Entering header [h] defines one macro named after it, as a header with
    its own include guard does. *)
Definition sample_ext (h : string) (m : gset string) : gset string :=
  {[ String.append "HAVE_" h ]} ∪ m.

(** A mangling scheme that differs from the plain name on every function. *)
Definition sample_mangle (p : prototype) : string :=
  String.append "_Z" (f_name p).

(** The header without its include guard: lines 8, 9 and 36 taken out. *)
Definition unguarded_lines : list string :=
  take 7 header_lines ++ take 26 (drop 9 header_lines).

Definition unguarded : list line := classify_lines unguarded_lines.

End Sample.

(** ** Further toolchains for the examples *)

Module Variants.

Import Header Lex Cpp Decls.

(** A toolchain that behaves as [Sample.sample_ext] wherever the header's
    guard is defined, and wipes the environment elsewhere. *)
Definition guarded_ext (h : string) (m : gset string) : gset string :=
  if defined ThreadCommissioner_h m then Sample.sample_ext h m else ∅.

(** A configuration macro of the external library, as an includer might
    define it. *)
Definition config_macro : string := "MBEDTLS_CONFIG_FILE".

End Variants.

(** * Properties *)

Import Header Lex Cpp Decls Scope.

(** ** The text and its lines *)

Lemma header_unfold : header = header_ast.
Proof. vm_compute. reflexivity. Qed.

Lemma split_lines_header : split_lines header_text = header_lines.
Proof. vm_compute. reflexivity. Qed.

(** ** Running the preprocessor over the header *)

Section Run.

Variable ext : string → gset string → gset string.

Lemma run_cons l rest s :
  run ext (l :: rest) s = step ext l s ≫= run ext rest.
Proof. reflexivity. Qed.

(** A macro the external headers preserve is defined after any number of
    them exactly when it was before. *)
Lemma foldl_ext_preserved x hs (m : gset string) :
  preserves ext x →
  x ∈ foldl (λ acc h, ext h acc) m hs ↔ x ∈ m.
Proof.
  intros Hx. revert m.
  induction hs as [|h hs IH]; intros m; simpl; [done|].
  rewrite IH. apply Hx.
Qed.

Lemma after_includes_guard m :
  preserves ext ThreadCommissioner_h →
  ThreadCommissioner_h ∈ after_includes ext m.
Proof.
  intros Hg. unfold after_includes.
  apply foldl_ext_preserved; [done|]. set_solver.
Qed.

Lemma after_includes_cplusplus m :
  preserves ext __cplusplus →
  __cplusplus ∈ after_includes ext m ↔ __cplusplus ∈ m.
Proof.
  intros Hc. unfold after_includes.
  rewrite foldl_ext_preserved by done.
  rewrite elem_of_union, elem_of_singleton.
  split; [intros [E|H]; [discriminate E|done] | by right].
Qed.

Lemma fits_language_of m : fits (language_of m) m.
Proof.
  unfold fits, language_of, defined.
  case_bool_decide; split; intros; done.
Qed.

Lemma language_of_fits lang m : fits lang m → language_of m = lang.
Proof.
  unfold fits, language_of, defined. intros Hf.
  case_bool_decide as Hc.
  - symmetry. by apply Hf.
  - destruct lang; [done|]. exfalso. apply Hc. by apply Hf.
Qed.

Ltac step_line :=
  rewrite run_cons;
  cbn [step active ps_open ps_macros ps_out emit push with_macros
       andb negb mbind option_bind app].

(** Second and later inclusions: with the guard defined, every line up to
    the closing [#endif] is skipped. *)
Lemma expand_seen m : ThreadCommissioner_h ∈ m → expand ext m = Some (m, []).
Proof.
  intros Hg. unfold expand, expand_file.
  rewrite header_unfold. unfold header_ast.
  assert (Hd : defined "ThreadCommissioner_h" m = true)
    by (apply bool_decide_eq_true; exact Hg).
  do 8 step_line. rewrite Hd. cbn [negb].
  repeat step_line. reflexivity.
Qed.

(** First inclusion: the guard is defined, the nine external headers are
    brought in, and the code lines kept are those of the language the
    macro environment shows once the headers are in. *)
Lemma expand_fresh m :
  ThreadCommissioner_h ∉ m →
  expand ext m =
    Some (after_includes ext m,
          own_items (language_of (after_includes ext m))).
Proof.
  intros Hg.
  assert (Hd : defined "ThreadCommissioner_h" m = false)
    by (apply bool_decide_eq_false; exact Hg).
  remember (after_includes ext m) as M eqn:HM.
  unfold after_includes, included_headers, ThreadCommissioner_h in HM.
  cbn [foldl] in HM.
  unfold expand, expand_file. rewrite header_unfold. unfold header_ast.
  do 8 step_line. rewrite Hd. cbn [negb].
  do 15 step_line. rewrite <- HM.
  unfold language_of.
  change (defined __cplusplus M) with (defined "__cplusplus" M).
  destruct (defined "__cplusplus" M) eqn:Hc.
  - repeat (step_line; rewrite ?Hc).
    cbn [run mbind option_bind ps_open ps_macros ps_out].
    reflexivity.
  - repeat (step_line; rewrite ?Hc).
    cbn [run mbind option_bind ps_open ps_macros ps_out].
    reflexivity.
Qed.

Lemma expand_first lang m :
  preserves ext __cplusplus → fits lang m → ThreadCommissioner_h ∉ m →
  expand ext m = Some (after_includes ext m, own_items lang).
Proof.
  intros Hc Hf Hg. rewrite expand_fresh by done.
  do 3 f_equal. apply language_of_fits.
  unfold fits in *. by rewrite after_includes_cplusplus.
Qed.

Lemma include_header_unfold st :
  include_header ext st
  = '(m', its) ← expand ext (tu_macros st);
    Some (mk_tu m' (tu_items st ++ its)).
Proof. unfold include_header, include_file, expand. reflexivity. Qed.

(** The expansion never fails. *)
Lemma expand_total m : is_Some (expand ext m).
Proof.
  destruct (decide (ThreadCommissioner_h ∈ m)) as [Hg|Hg].
  - rewrite expand_seen by done. by eexists.
  - rewrite expand_fresh by done. by eexists.
Qed.

End Run.

(** ** The declarations the header contributes *)

Lemma own_declarations lang :
  declarations lang (own_items lang)
  = Some [mk_decl Spec.prototype_in_words false LinkC].
Proof. destruct lang; vm_compute; reflexivity. Qed.

Lemma signature_in_words : Spec.signature = Some Spec.prototype_in_words.
Proof. vm_compute. reflexivity. Qed.

(** ** The sample toolchain and the plain translation units *)

Lemma sample_preserves x :
  (∀ h, x ≠ String.append "HAVE_" h) → preserves Sample.sample_ext x.
Proof.
  intros Hx h m. unfold Sample.sample_ext.
  rewrite elem_of_union, elem_of_singleton.
  split; [intros [E|H]; [by destruct (Hx h)|done] | by right].
Qed.

Lemma sample_preserves_guard :
  preserves Sample.sample_ext ThreadCommissioner_h.
Proof. apply sample_preserves. intros h E. discriminate E. Qed.

Lemma sample_preserves_cplusplus : preserves Sample.sample_ext __cplusplus.
Proof. apply sample_preserves. intros h E. discriminate E. Qed.

Lemma fits_predefined lang : fits lang (predefined lang).
Proof.
  unfold fits. destruct lang; simpl.
  - split; [intros H; by apply not_elem_of_empty in H | done].
  - split; [done | intros _; by apply elem_of_singleton].
Qed.

Lemma guard_not_predefined lang : ThreadCommissioner_h ∉ predefined lang.
Proof.
  destruct lang; simpl.
  - apply not_elem_of_empty.
  - intros E%elem_of_singleton. discriminate E.
Qed.

(** ** Item lists *)

Lemma elem_of_headers_of h its : h ∈ headers_of its ↔ Hdr h ∈ its.
Proof.
  unfold headers_of. induction its as [|i its IH]; simpl.
  - split; intros H; inversion H.
  - rewrite elem_of_app, IH, elem_of_cons. destruct i as [h'|ts]; simpl.
    + rewrite list_elem_of_singleton. split.
      * intros [->|H]; [by left | by right].
      * intros [E|H]; [left; congruence | by right].
    + split.
      * intros [H|H]; [inversion H | by right].
      * intros [E|H]; [discriminate E | by right].
Qed.

Lemma visible_of_header {D : Type} (contents : string → list D) h d its :
  Hdr h ∈ its → d ∈ contents h → d ∈ visible contents its.
Proof.
  intros Hh Hd. unfold visible.
  induction its as [|i its IH]; simpl; [inversion Hh|].
  apply elem_of_app. apply elem_of_cons in Hh as [<-|Hh]; [by left|].
  right. by apply IH.
Qed.

Lemma mentions_elem w ts : TWord w ∈ ts → mentions w ts = true.
Proof.
  unfold mentions. induction ts as [|t ts IH]; intros H; [inversion H|].
  apply elem_of_cons in H as [<-|H]; simpl.
  - by rewrite String.eqb_refl.
  - rewrite IH by done. apply orb_true_r.
Qed.

(** The check [declared_before] is sound: a code line that mentions [w]
    has [h] among the items before it. *)
Lemma declared_before_sound h w its :
  ∀ seen, declared_before h w seen its = true →
  ∀ pre ts post, its = pre ++ Src ts :: post → TWord w ∈ ts →
  seen = true ∨ Hdr h ∈ pre.
Proof.
  induction its as [|i its IH]; intros seen Hchk pre ts post Heq Hw.
  - by destruct pre.
  - destruct i as [h'|ts0]; simpl in Hchk.
    + destruct pre as [|i pre]; simplify_eq/=.
      destruct (IH _ Hchk pre ts post eq_refl Hw) as [Hs|Hin].
      * apply orb_true_iff in Hs as [Hs|Hs]; [by left|].
        apply String.eqb_eq in Hs as ->. right. by left.
      * right. by right.
    + apply andb_true_iff in Hchk as [Hhere Hrest].
      destruct pre as [|i pre]; simplify_eq/=.
      * apply mentions_elem in Hw. rewrite Hw in Hhere.
        left. by rewrite orb_false_r in Hhere.
      * destruct (IH _ Hrest pre ts post eq_refl Hw) as [Hs|Hin];
          [by left | right; by right].
Qed.

(** ** The file as a whole *)

(** Taken together, the code lines of the file are one linkage
    specification around one prototype. *)
Lemma static_declaration :
  parse LangCxx (code_tokens header)
  = Some [mk_decl Spec.prototype_in_words false LinkC].
Proof. vm_compute. reflexivity. Qed.

Lemma headers_of_own_items lang :
  headers_of (own_items lang) = Spec.mbedtls_headers ++ ["stddef.h"].
Proof. destruct lang; vm_compute; reflexivity. Qed.

(** In C++ the kept code lines are those of C between the two lines of the
    linkage specification. *)
Lemma tokens_wrapped :
  tokens_of (own_items LangCxx)
  = [TWord "extern"; TString "C"; TPunct "{"]
    ++ tokens_of (own_items LangC) ++ [TPunct "}"].
Proof. vm_compute. reflexivity. Qed.

(** Without its wrapper the prototype would have C++ linkage in a C++
    unit, and name whatever symbol the mangling scheme gives it. *)
Lemma unwrapped_has_cxx_linkage mangle :
  ∃ d, declarations LangCxx (own_items LangC) = Some [d] ∧
       d_linkage d = LinkCxx ∧
       symbol mangle d = mangle Spec.prototype_in_words.
Proof.
  exists (mk_decl Spec.prototype_in_words false LinkCxx).
  split; [vm_compute; reflexivity | done].
Qed.

(** The headers come first, the code lines after them. *)
Lemma own_items_shape lang :
  own_items lang
  = map Hdr (Spec.mbedtls_headers ++ ["stddef.h"])
    ++ map Src (sources_of (own_items lang)).
Proof. destruct lang; vm_compute; reflexivity. Qed.

Lemma mbedtls_imported :
  Forall (λ h, Directive (DImport h) ∈ header) Spec.mbedtls_headers.
Proof.
  rewrite header_unfold. unfold header_ast, Spec.mbedtls_headers.
  repeat (apply Forall_cons; split; [repeat constructor|]).
  apply Forall_nil_2.
Qed.

Lemma own_items_declared_before lang :
  declared_before "stddef.h" "size_t" false (own_items lang) = true.
Proof. destruct lang; vm_compute; reflexivity. Qed.

Lemma own_items_mention_size_t lang :
  ∃ ts, Src ts ∈ own_items lang ∧ TWord "size_t" ∈ ts.
Proof.
  exists [TWord "size_t"; TWord "pw_len"; TPunct ")"; TPunct ";"].
  split; [|by left].
  apply (list_elem_of_lookup_2 _
           (match lang with LangC => 11 | LangCxx => 12 end)).
  destruct lang; vm_compute; reflexivity.
Qed.

(** ** Macro replacement *)

Lemma plain_codeb_sound ext m : plain_codeb ext m = true → plain_code ext m.
Proof.
  unfold plain_codeb, plain_code. intros H w Hw.
  rewrite forallb_forall in H. apply list_elem_of_In in Hw.
  specialize (H _ Hw). cbn beta iota in H.
  apply negb_true_iff, bool_decide_eq_false in H. exact H.
Qed.

Lemma code_line_tokens ts t ls :
  Code ts ∈ ls → t ∈ ts → t ∈ code_tokens ls.
Proof.
  intros Hl Ht. unfold code_tokens.
  induction ls as [|l ls IH]; [inversion Hl|].
  simpl. apply elem_of_app.
  apply elem_of_cons in Hl as [<-|Hl]; [by left | right; by apply IH].
Qed.

(** In a list of headers followed by code lines, every header comes before
    every code line. *)
Lemma headers_before_code hs code pre ts post h :
  map Hdr hs ++ map Src code = pre ++ Src ts :: post →
  h ∈ hs → Hdr h ∈ pre.
Proof.
  revert pre. induction hs as [|h0 hs IH]; intros pre Heq Hh.
  - inversion Hh.
  - destruct pre as [|i pre]; simplify_eq/=.
    apply elem_of_cons in Hh as [->|Hh]; [by left|].
    right. by eapply IH.
Qed.

Section Bridge.

Variable ext : string → gset string → gset string.
Variable replace : gset string → list token → list token.

Lemma run_replacing_cons l rest s :
  run_replacing ext replace (l :: rest) s
  = step_replacing ext replace l s ≫= run_replacing ext replace rest.
Proof. reflexivity. Qed.

Ltac step_replacing_line :=
  rewrite run_replacing_cons;
  cbn [step_replacing step active ps_open ps_macros ps_out emit push
       with_macros andb negb mbind option_bind app].

(** A code line of the header is left as it is where no code word is a
    macro. *)
Lemma replace_code_line m ts :
  leaves_plain_lines replace → plain_code ext m → Code ts ∈ header →
  replace (after_includes ext m) ts = ts.
Proof.
  intros Hlaw Hplain Hts. apply Hlaw. intros w Hw.
  apply Hplain. by eapply code_line_tokens.
Qed.

(** Whatever macro replacement does to the code lines, the expansion
    succeeds and is empty or the nine external headers followed by code
    lines. *)
Lemma expand_replacing_shape m :
  ∃ m' its,
    expand_replacing ext replace m = Some (m', its) ∧
    (its = [] ∨ ∃ code, its = map Hdr included_headers ++ map Src code).
Proof.
  unfold expand_replacing. rewrite header_unfold. unfold header_ast.
  do 8 step_replacing_line.
  destruct (defined "ThreadCommissioner_h" m) eqn:Hd; cbn [negb].
  - repeat step_replacing_line.
    eexists _, _. split; [reflexivity | by left].
  - do 15 step_replacing_line.
    match goal with
    | |- context [defined "__cplusplus" ?M] =>
        destruct (defined "__cplusplus" M) eqn:Hc
    end.
    + repeat (step_replacing_line; rewrite ?Hc).
      cbn [run_replacing mbind option_bind ps_open ps_macros ps_out].
      eexists _, _. split; [reflexivity|]. right.
      by eexists [_; _; _; _; _].
    + repeat (step_replacing_line; rewrite ?Hc).
      cbn [run_replacing mbind option_bind ps_open ps_macros ps_out].
      eexists _, _. split; [reflexivity|]. right.
      by eexists [_; _; _].
Qed.

(** So every code line, whatever it has become, comes after each of the
    external headers. *)
Lemma expand_replacing_ordered m h :
  h ∈ included_headers →
  ∃ m' its,
    expand_replacing ext replace m = Some (m', its) ∧
    ∀ pre ts post, its = pre ++ Src ts :: post → Hdr h ∈ pre.
Proof.
  intros Hh. destruct (expand_replacing_shape m) as (m' & its & -> & Hs).
  exists m', its. split; [done|]. intros pre ts post Heq.
  destruct Hs as [->|[code ->]]; [by destruct pre|].
  by eapply headers_before_code.
Qed.

(** The machine that replaces macros and the one that does not give the
    same expansion of the header, on a repeated inclusion always, and on a
    first inclusion when no code word is a macro. *)
Lemma expand_replacing_plain m :
  leaves_plain_lines replace →
  (ThreadCommissioner_h ∉ m → plain_code ext m) →
  expand_replacing ext replace m = expand ext m.
Proof.
  intros Hlaw Hplain.
  destruct (decide (ThreadCommissioner_h ∈ m)) as [Hg|Hg].
  - rewrite expand_seen by done.
    unfold expand_replacing. rewrite header_unfold. unfold header_ast.
    assert (Hd : defined "ThreadCommissioner_h" m = true)
      by (apply bool_decide_eq_true; exact Hg).
    do 8 step_replacing_line. rewrite Hd. cbn [negb].
    repeat step_replacing_line. reflexivity.
  - rewrite expand_fresh by done. specialize (Hplain Hg).
    assert (Hd : defined "ThreadCommissioner_h" m = false)
      by (apply bool_decide_eq_false; exact Hg).
    assert (Hline : ∀ ts, Code ts ∈ header_ast →
                          replace (after_includes ext m) ts = ts).
    { intros ts Hts. apply replace_code_line; [done..|].
      by rewrite header_unfold. }
    remember (after_includes ext m) as M eqn:HM.
    unfold after_includes, included_headers, ThreadCommissioner_h in HM.
    cbn [foldl] in HM.
    unfold expand_replacing. rewrite header_unfold.
    unfold header_ast in *.
    do 8 step_replacing_line. rewrite Hd. cbn [negb].
    do 15 step_replacing_line. rewrite <- HM.
    unfold language_of.
    change (defined __cplusplus M) with (defined "__cplusplus" M).
    destruct (defined "__cplusplus" M) eqn:Hc.
    + repeat (step_replacing_line; rewrite ?Hc;
              rewrite ?Hline by repeat constructor).
      cbn [run_replacing mbind option_bind ps_open ps_macros ps_out].
      reflexivity.
    + repeat (step_replacing_line; rewrite ?Hc;
              rewrite ?Hline by repeat constructor).
      cbn [run_replacing mbind option_bind ps_open ps_macros ps_out].
      reflexivity.
Qed.

Lemma include_header_defines_guard st st' :
  preserves ext ThreadCommissioner_h →
  include_header ext st = Some st' →
  ThreadCommissioner_h ∈ tu_macros st'.
Proof.
  intros Hp. destruct st as [m its]. rewrite include_header_unfold.
  cbn [tu_macros tu_items].
  destruct (decide (ThreadCommissioner_h ∈ m)) as [Hg|Hg].
  - rewrite expand_seen by done. cbn [mbind option_bind].
    by intros [= <-].
  - rewrite expand_fresh by done. cbn [mbind option_bind].
    intros [= <-]. by apply after_includes_guard.
Qed.

(** Any number of inclusions: the two machines agree from a unit that has
    seen the header, or in which no code word is a macro. *)
Lemma include_times_replacing_plain n st :
  leaves_plain_lines replace →
  preserves ext ThreadCommissioner_h →
  (ThreadCommissioner_h ∉ tu_macros st → plain_code ext (tu_macros st)) →
  include_times_replacing ext replace n st = include_times ext n st.
Proof.
  intros Hlaw Hp. revert st.
  induction n as [|n IH]; intros st Hplain; [done|].
  cbn [include_times_replacing include_times].
  unfold include_header_replacing.
  rewrite expand_replacing_plain by done.
  rewrite include_header_unfold.
  destruct (expand ext (tu_macros st)) as [[m' its]|] eqn:He;
    cbn [mbind option_bind]; [|done].
  apply IH. intros Hg. exfalso. apply Hg.
  apply (include_header_defines_guard st); [done|].
  rewrite include_header_unfold, He. done.
Qed.

End Bridge.

(** The sample units define no macro that names a code word. *)
Lemma sample_plain lang : plain_code Sample.sample_ext (predefined lang).
Proof. apply plain_codeb_sound. destruct lang; vm_compute; reflexivity. Qed.

Lemma sample_plain_config :
  plain_code Sample.sample_ext {[Variants.config_macro]}.
Proof. apply plain_codeb_sound. vm_compute. reflexivity. Qed.

Lemma bare_plain : plain_code (λ _ m, m) ∅.
Proof. apply plain_codeb_sound. vm_compute. reflexivity. Qed.

(** ** The model at work *)

Example block_comment_spans_lines :
  classify_lines ["/* a"; ""; "b */ int x;"; "#  include  <a.h>  // c"]
  = [ Comment; Comment; Code [TWord "int"; TWord "x"; TPunct ";"]
    ; Directive (DInclude "a.h") ].
Proof. vm_compute. reflexivity. Qed.

Example parse_definition :
  parse LangC (tokenize "int f(void) { if (x) { return 1; } } char *g();")
  = Some [ mk_decl (mk_proto (mk_ctype false ["int"] 0) "f" []) true LinkC
         ; mk_decl (mk_proto (mk_ctype false ["char"] 1) "g" []) false LinkC ].
Proof. vm_compute. reflexivity. Qed.

Example parse_rejects_struct :
  parse LangC (tokenize "struct s { int x; };") = None.
Proof. vm_compute. reflexivity. Qed.

(** A linkage specification is not C: a C unit must not see line 24. *)
Example parse_rejects_linkage_in_c :
  parse LangC (tokens_of (own_items LangCxx)) = None.
Proof. vm_compute. reflexivity. Qed.

Example unbalanced_group_fails :
  snd <$> expand_file (λ _ m, m) (classify_lines ["#ifdef X"; "int f();"]) ∅
  = None.
Proof. vm_compute. reflexivity. Qed.

(** Without the guard a second inclusion repeats every item. *)
Example unguarded_repeats :
  tu_items <$> (include_file (λ _ m, m) Sample.unguarded (mk_tu ∅ [])
                ≫= include_file (λ _ m, m) Sample.unguarded)
  = Some (own_items LangC ++ own_items LangC).
Proof. vm_compute. reflexivity. Qed.

(** ** The claims *)

(** C1.  The code lines of the file spell exactly one declaration, and its
    prototype is the one the specification prints: the function
    [mbedtls_ssl_set_hs_ecjpake_password], returning [int], with the three
    parameters [mbedtls_ssl_context *], [const unsigned char *] and
    [size_t], in that order.  A translation unit of either language that
    includes the header for the first time, with no word of those lines
    defined as a macro, gets that declaration from it. *)
Theorem prototype_matches_spec ext lang m :
  preserves ext __cplusplus → fits lang m → ThreadCommissioner_h ∉ m →
  plain_code ext m →
  ∃ m' its d,
    expand ext m = Some (m', its) ∧
    (∀ replace, leaves_plain_lines replace →
                expand_replacing ext replace m = Some (m', its)) ∧
    declarations lang its = Some [d] ∧
    parse LangCxx (code_tokens header) = Some [d] ∧
    Spec.signature = Some (d_proto d) ∧
    f_name (d_proto d) = Spec.function_name ∧
    f_ret (d_proto d) = Spec.int_type ∧
    map p_type (f_params (d_proto d)) = Spec.parameter_types ∧
    length (f_params (d_proto d)) = 3.
Proof.
  intros Hc Hf Hg Hplain.
  exists (after_includes ext m), (own_items lang),
         (mk_decl Spec.prototype_in_words false LinkC).
  split; [by apply expand_first|].
  split; [intros replace Hlaw; rewrite expand_replacing_plain by done;
          by apply expand_first|].
  split; [apply own_declarations|].
  split; [apply static_declaration|].
  split; [apply signature_in_words|].
  repeat split.
Qed.

Lemma prototype_matches_spec_witness :
  ∃ m' its d,
    expand Sample.sample_ext (predefined LangCxx) = Some (m', its) ∧
    (∀ replace, leaves_plain_lines replace →
                expand_replacing Sample.sample_ext replace
                  (predefined LangCxx) = Some (m', its)) ∧
    declarations LangCxx its = Some [d] ∧
    parse LangCxx (code_tokens header) = Some [d] ∧
    Spec.signature = Some (d_proto d) ∧
    f_name (d_proto d) = Spec.function_name ∧
    f_ret (d_proto d) = Spec.int_type ∧
    map p_type (f_params (d_proto d)) = Spec.parameter_types ∧
    length (f_params (d_proto d)) = 3.
Proof.
  apply (prototype_matches_spec Sample.sample_ext LangCxx
           (predefined LangCxx)).
  - apply sample_preserves_cplusplus.
  - apply fits_predefined.
  - apply guard_not_predefined.
  - apply sample_plain.
Defined.

(** C2.  The header's own lines declare one function and do not define it:
    the code lines of the whole file parse to exactly one declaration,
    named [mbedtls_ssl_set_hs_ecjpake_password], with no body; a unit that
    includes the header for the first time, with no word of those lines
    defined as a macro, gets that one declaration from them. *)
Theorem one_prototype_without_body ext lang m :
  preserves ext __cplusplus → fits lang m → ThreadCommissioner_h ∉ m →
  plain_code ext m →
  ∃ m' its d,
    expand ext m = Some (m', its) ∧
    (∀ replace, leaves_plain_lines replace →
                expand_replacing ext replace m = Some (m', its)) ∧
    declarations lang its = Some [d] ∧
    f_name (d_proto d) = Spec.function_name ∧
    d_has_body d = false ∧
    parse LangCxx (code_tokens header) = Some [d].
Proof.
  intros Hc Hf Hg Hplain.
  exists (after_includes ext m), (own_items lang),
         (mk_decl Spec.prototype_in_words false LinkC).
  split; [by apply expand_first|].
  split; [intros replace Hlaw; rewrite expand_replacing_plain by done;
          by apply expand_first|].
  split; [apply own_declarations|].
  split; [done|]. split; [done|]. apply static_declaration.
Qed.

Lemma one_prototype_without_body_witness :
  ∃ m' its d,
    expand Sample.sample_ext (predefined LangC) = Some (m', its) ∧
    (∀ replace, leaves_plain_lines replace →
                expand_replacing Sample.sample_ext replace
                  (predefined LangC) = Some (m', its)) ∧
    declarations LangC its = Some [d] ∧
    f_name (d_proto d) = Spec.function_name ∧
    d_has_body d = false ∧
    parse LangCxx (code_tokens header) = Some [d].
Proof.
  apply (one_prototype_without_body Sample.sample_ext LangC
           (predefined LangC)).
  - apply sample_preserves_cplusplus.
  - apply fits_predefined.
  - apply guard_not_predefined.
  - apply sample_plain.
Defined.

(** C3.  The file has no logic of its own.  Its code lines, taken together,
    are a single extern declaration without a body, so there is no function
    definition and no statement; no code token is a keyword of a type
    definition or of control flow, or an assignment; and every line is a
    directive of the six kinds above, a comment, a blank line or one of the
    five lines of that declaration. *)
Theorem no_original_logic :
  (∃ d, parse LangCxx (code_tokens header) = Some [d] ∧ d_has_body d = false) ∧
  Forall (λ t, is_logic_token t = false) (code_tokens header) ∧
  Forall (λ l, Spec.layout_kind (kind_of l) = true) header ∧
  count_kind KCode header = 5 ∧
  count_kind KOther header = 0.
Proof.
  split; [eexists; split; [apply static_declaration | done]|].
  rewrite header_unfold. unfold header_ast.
  split; [|split]; [repeat constructor..|done].
Qed.

(** C4, as stated, fails: the file has 36 lines, but its first line is a
    comment, which is none of the three kinds the budget names. *)
Lemma budget_kinds_counterexample :
  ¬ (length header_lines = 36 ∧
     Forall (λ l, Spec.budget_kind (kind_of l) = true) header).
Proof.
  intros [_ H]. rewrite header_unfold in H. unfold header_ast in H.
  apply Forall_cons in H as [H _]. discriminate H.
Qed.

(** C4, amended.  The file has 36 lines.  Of them 21 are of the three kinds
    the budget names: 9 include directives, 7 guard directives and the 5
    lines of the single extern declaration; the other 15 are 8 comments and
    7 blank lines; there is no line of any other kind. *)
Theorem line_budget :
  length header_lines = 36 ∧
  length (split_lines header_text) = 36 ∧
  length header = 36 ∧
  Forall (λ l, Spec.layout_kind (kind_of l) = true) header ∧
  count_kind KInclude header = 9 ∧
  count_kind KGuard header = 7 ∧
  count_kind KCode header = 5 ∧
  count_kind KComment header = 8 ∧
  count_kind KBlank header = 7 ∧
  (∃ d, parse LangCxx (code_tokens header) = Some [d] ∧ d_has_body d = false).
Proof.
  split; [done|].
  split; [by rewrite split_lines_header|].
  rewrite header_unfold. unfold header_ast.
  split; [done|].
  split; [repeat constructor|].
  do 5 (split; [done|]).
  exists (mk_decl Spec.prototype_in_words false LinkC).
  split; [vm_compute; reflexivity | done].
Qed.

(** C5.  A unit that includes the header for the first time gets the eight
    mbedTLS headers: each of them is named by an [#import] line of the file,
    each is among the items of the expansion, ahead of the header's own code
    lines, and every declaration it holds is visible afterwards. *)
Theorem reexports_mbedtls {D : Type} (contents : string → list D) ext m :
  ThreadCommissioner_h ∉ m →
  ∃ m' its,
    expand ext m = Some (m', its) ∧
    (∃ code, its = map Hdr (Spec.mbedtls_headers ++ ["stddef.h"])
                   ++ map Src code) ∧
    (∀ h, h ∈ Spec.mbedtls_headers →
          Directive (DImport h) ∈ header ∧ Hdr h ∈ its) ∧
    (∀ h d, h ∈ Spec.mbedtls_headers → d ∈ contents h →
            d ∈ visible contents its).
Proof.
  intros Hg. rewrite expand_fresh by done.
  set (lang := language_of (after_includes ext m)).
  eexists _, _. split; [reflexivity|].
  assert (Hin : ∀ h, h ∈ Spec.mbedtls_headers → Hdr h ∈ own_items lang).
  { intros h Hh. apply elem_of_headers_of.
    rewrite headers_of_own_items. apply elem_of_app. by left. }
  split; [|split].
  - eexists. apply own_items_shape.
  - intros h Hh. split; [|by apply Hin].
    by apply (proj1 (Forall_forall _ _) mbedtls_imported).
  - intros h d Hh Hd. eapply visible_of_header; [by apply Hin | done].
Qed.

Lemma reexports_mbedtls_witness :
  ∃ m' its,
    expand Sample.sample_ext ∅ = Some (m', its) ∧
    (∃ code, its = map Hdr (Spec.mbedtls_headers ++ ["stddef.h"])
                   ++ map Src code) ∧
    (∀ h, h ∈ Spec.mbedtls_headers →
          Directive (DImport h) ∈ header ∧ Hdr h ∈ its) ∧
    (∀ h d, h ∈ Spec.mbedtls_headers →
            d ∈ (λ h', [String.append "decl of " h']) h →
            d ∈ visible (λ h', [String.append "decl of " h']) its).
Proof.
  apply (reexports_mbedtls (λ h', [String.append "decl of " h'])
           Sample.sample_ext ∅).
  apply not_elem_of_empty.
Defined.

(** C7.  Including the header again changes nothing: after one inclusion
    the guard is defined, so a second inclusion, and any number of further
    ones, leaves the macros and the items of the unit, and with them its
    declarations, as they were.  The external headers are assumed not to
    undefine the guard. *)
Theorem inclusion_idempotent ext st :
  preserves ext ThreadCommissioner_h →
  ∃ st1,
    include_header ext st = Some st1 ∧
    include_header ext st1 = Some st1 ∧
    ∀ n, include_times ext (S n) st = Some st1.
Proof.
  intros Hp.
  assert (Hagain : ∀ s, ThreadCommissioner_h ∈ tu_macros s →
                        include_header ext s = Some s).
  { intros [m its] Hg. rewrite include_header_unfold.
    cbn [tu_macros tu_items]. rewrite expand_seen by done.
    cbn [mbind option_bind]. by rewrite app_nil_r. }
  assert (Hfirst : ∃ st1, include_header ext st = Some st1 ∧
                          ThreadCommissioner_h ∈ tu_macros st1).
  { destruct st as [m its]. rewrite include_header_unfold.
    cbn [tu_macros tu_items].
    destruct (decide (ThreadCommissioner_h ∈ m)) as [Hg|Hg].
    - rewrite expand_seen by done. by eexists.
    - rewrite expand_fresh by done. eexists. split; [reflexivity|].
      by apply after_includes_guard. }
  destruct Hfirst as (st1 & H1 & Hg1). exists st1.
  split; [done|]. split; [by apply Hagain|].
  intros n. cbn [include_times]. rewrite H1. cbn [mbind option_bind].
  induction n as [|n IH]; [done|].
  cbn [include_times]. rewrite Hagain by done. exact IH.
Qed.

Lemma inclusion_idempotent_witness :
  ∃ st1,
    include_header Sample.sample_ext (mk_tu (predefined LangCxx) [])
    = Some st1 ∧
    include_header Sample.sample_ext st1 = Some st1 ∧
    ∀ n, include_times Sample.sample_ext (S n) (mk_tu (predefined LangCxx) [])
         = Some st1.
Proof.
  apply (inclusion_idempotent Sample.sample_ext
           (mk_tu (predefined LangCxx) [])).
  apply sample_preserves_guard.
Defined.

(** C8.  A C unit and a C++ unit that include the header, neither with a
    word of its code lines defined as a macro, get the same surface: the
    same external headers and the same declaration.  In the C++ unit the
    prototype sits between the two lines of an extern "C" block, so the
    declaration has C linkage there as well, and in both units it names the
    symbol [mbedtls_ssl_set_hs_ecjpake_password], whatever the mangling
    scheme. *)
Theorem same_surface_in_c_and_cxx ext mangle m_c m_cxx :
  preserves ext __cplusplus →
  ThreadCommissioner_h ∉ m_c → fits LangC m_c → plain_code ext m_c →
  ThreadCommissioner_h ∉ m_cxx → fits LangCxx m_cxx →
  plain_code ext m_cxx →
  ∃ m_c' m_cxx' its_c its_cxx d,
    expand ext m_c = Some (m_c', its_c) ∧
    expand ext m_cxx = Some (m_cxx', its_cxx) ∧
    (∀ replace, leaves_plain_lines replace →
                expand_replacing ext replace m_c = Some (m_c', its_c) ∧
                expand_replacing ext replace m_cxx
                = Some (m_cxx', its_cxx)) ∧
    headers_of its_c = headers_of its_cxx ∧
    tokens_of its_cxx
    = [TWord "extern"; TString "C"; TPunct "{"]
      ++ tokens_of its_c ++ [TPunct "}"] ∧
    declarations LangC its_c = Some [d] ∧
    declarations LangCxx its_cxx = Some [d] ∧
    d_linkage d = LinkC ∧
    symbol mangle d = Spec.function_name.
Proof.
  intros Hp Hgc Hfc Hpc Hgx Hfx Hpx.
  exists (after_includes ext m_c), (after_includes ext m_cxx),
         (own_items LangC), (own_items LangCxx),
         (mk_decl Spec.prototype_in_words false LinkC).
  split; [by apply expand_first|].
  split; [by apply expand_first|].
  split; [intros replace Hlaw; rewrite !expand_replacing_plain by done;
          split; by apply expand_first|].
  split; [by rewrite !headers_of_own_items|].
  split; [apply tokens_wrapped|].
  split; [apply own_declarations|].
  split; [apply own_declarations|].
  done.
Qed.

Lemma same_surface_in_c_and_cxx_witness :
  ∃ m_c' m_cxx' its_c its_cxx d,
    expand Sample.sample_ext (predefined LangC) = Some (m_c', its_c) ∧
    expand Sample.sample_ext (predefined LangCxx) = Some (m_cxx', its_cxx) ∧
    (∀ replace, leaves_plain_lines replace →
                expand_replacing Sample.sample_ext replace (predefined LangC)
                = Some (m_c', its_c) ∧
                expand_replacing Sample.sample_ext replace
                  (predefined LangCxx) = Some (m_cxx', its_cxx)) ∧
    headers_of its_c = headers_of its_cxx ∧
    tokens_of its_cxx
    = [TWord "extern"; TString "C"; TPunct "{"]
      ++ tokens_of its_c ++ [TPunct "}"] ∧
    declarations LangC its_c = Some [d] ∧
    declarations LangCxx its_cxx = Some [d] ∧
    d_linkage d = LinkC ∧
    symbol Sample.sample_mangle d = Spec.function_name.
Proof.
  apply (same_surface_in_c_and_cxx Sample.sample_ext Sample.sample_mangle
           (predefined LangC) (predefined LangCxx)).
  - apply sample_preserves_cplusplus.
  - apply guard_not_predefined.
  - apply fits_predefined.
  - apply sample_plain.
  - apply guard_not_predefined.
  - apply fits_predefined.
  - apply sample_plain.
Defined.

(** C9.  Whatever the includer defined or included before, and whatever
    the external headers do to the macros, the expansion succeeds and every
    code line in it that uses [size_t] comes after [<stddef.h>] has been
    brought in by the header itself (line 21 before line 30).  This holds
    with macro replacement as well: every code line, whatever it has
    become, comes after [<stddef.h>].  On a first inclusion with no word of
    the code lines defined as a macro there is a line that uses [size_t]. *)
Theorem size_t_declared_before_use ext m :
  ∃ m' its,
    expand ext m = Some (m', its) ∧
    (∀ pre ts post,
       its = pre ++ Src ts :: post → TWord "size_t" ∈ ts →
       Hdr "stddef.h" ∈ pre) ∧
    (∀ replace, ∃ m2 its2,
       expand_replacing ext replace m = Some (m2, its2) ∧
       ∀ pre ts post, its2 = pre ++ Src ts :: post →
                      Hdr "stddef.h" ∈ pre) ∧
    (ThreadCommissioner_h ∉ m → plain_code ext m →
     ∃ ts, Src ts ∈ its ∧ TWord "size_t" ∈ ts) ∧
    header !! 20 = Some (Directive (DInclude "stddef.h")) ∧
    header !! 29
    = Some (Code [TWord "size_t"; TWord "pw_len"; TPunct ")"; TPunct ";"]).
Proof.
  assert (Hlines :
    header !! 20 = Some (Directive (DInclude "stddef.h")) ∧
    header !! 29
    = Some (Code [TWord "size_t"; TWord "pw_len"; TPunct ")"; TPunct ";"]))
    by (by rewrite header_unfold).
  assert (Hrep : ∀ replace, ∃ m2 its2,
    expand_replacing ext replace m = Some (m2, its2) ∧
    ∀ pre ts post, its2 = pre ++ Src ts :: post → Hdr "stddef.h" ∈ pre).
  { intros replace. apply expand_replacing_ordered.
    by apply (list_elem_of_lookup_2 _ 8). }
  destruct (decide (ThreadCommissioner_h ∈ m)) as [Hg|Hg].
  - rewrite expand_seen by done. eexists _, _. split; [reflexivity|].
    split; [|by repeat split]. intros pre ts post Heq. by destruct pre.
  - rewrite expand_fresh by done. eexists _, _. split; [reflexivity|].
    split; [|split; [done|split; [|done]]].
    + intros pre ts post Heq Hw.
      destruct (declared_before_sound "stddef.h" "size_t" _ false
                  (own_items_declared_before _) pre ts post Heq Hw)
        as [Hf|Hin]; [discriminate Hf | done].
    + intros _ _. apply own_items_mention_size_t.
Qed.

Lemma size_t_declared_before_use_witness :
  ∃ m' its,
    expand Sample.sample_ext ∅ = Some (m', its) ∧
    (∀ pre ts post,
       its = pre ++ Src ts :: post → TWord "size_t" ∈ ts →
       Hdr "stddef.h" ∈ pre) ∧
    (∀ replace, ∃ m2 its2,
       expand_replacing Sample.sample_ext replace ∅ = Some (m2, its2) ∧
       ∀ pre ts post, its2 = pre ++ Src ts :: post →
                      Hdr "stddef.h" ∈ pre) ∧
    (ThreadCommissioner_h ∉ (∅ : gset string) →
     plain_code Sample.sample_ext ∅ →
     ∃ ts, Src ts ∈ its ∧ TWord "size_t" ∈ ts) ∧
    header !! 20 = Some (Directive (DInclude "stddef.h")) ∧
    header !! 29
    = Some (Code [TWord "size_t"; TWord "pw_len"; TPunct ")"; TPunct ";"]).
Proof.
  apply (size_t_declared_before_use Sample.sample_ext ∅).
Defined.

(** ** Further properties of the header *)

Lemma include_header_again ext s :
  ThreadCommissioner_h ∈ tu_macros s → include_header ext s = Some s.
Proof.
  destruct s as [m its]. intros Hg. rewrite include_header_unfold.
  cbn [tu_macros tu_items] in *. rewrite expand_seen by done.
  cbn [mbind option_bind]. by rewrite app_nil_r.
Qed.

Lemma include_times_again ext n s :
  ThreadCommissioner_h ∈ tu_macros s → include_times ext n s = Some s.
Proof.
  intros Hg. induction n as [|n IH]; [done|].
  cbn [include_times]. by rewrite include_header_again.
Qed.

(** The environment after the includes depends on the toolchain only
    through what it does where the guard is defined. *)
Lemma foldl_ext_agree ext ext' hs (m : gset string) :
  preserves ext ThreadCommissioner_h →
  (∀ h m0, ThreadCommissioner_h ∈ m0 → ext' h m0 = ext h m0) →
  ThreadCommissioner_h ∈ m →
  foldl (λ acc h, ext' h acc) m hs = foldl (λ acc h, ext h acc) m hs.
Proof.
  intros Hp Hagree. revert m.
  induction hs as [|h hs IH]; intros m Hg; simpl; [done|].
  rewrite Hagree by done. apply IH. by apply Hp.
Qed.

Lemma own_items_context_declared_before lang :
  declared_before "mbedtls/ssl.h" "mbedtls_ssl_context" false (own_items lang)
  = true.
Proof. destruct lang; vm_compute; reflexivity. Qed.

Lemma own_items_mention_context lang :
  ∃ ts, Src ts ∈ own_items lang ∧ TWord "mbedtls_ssl_context" ∈ ts.
Proof.
  exists [TWord "int"; TWord "mbedtls_ssl_set_hs_ecjpake_password";
          TPunct "("; TWord "mbedtls_ssl_context"; TPunct "*";
          TWord "ssl"; TPunct ","].
  split; [|repeat constructor].
  apply (list_elem_of_lookup_2 _
           (match lang with LangC => 9 | LangCxx => 10 end)).
  destruct lang; vm_compute; reflexivity.
Qed.


Lemma bare_in_cxx :
  declarations LangCxx (own_items LangC)
  = Some [mk_decl Spec.prototype_in_words false LinkCxx].
Proof. vm_compute. reflexivity. Qed.

(** X1.  A unit in which [ThreadCommissioner_h] is already defined gets
    nothing from the header, whatever the external headers would do: no
    item, hence no external header and no declaration, and the macro
    environment is left exactly as it was. *)
Theorem defined_guard_suppresses_header ext m :
  ThreadCommissioner_h ∈ m →
  ∃ its,
    expand ext m = Some (m, its) ∧
    its = [] ∧
    headers_of its = [] ∧
    ∀ lang, declarations lang its = Some [].
Proof.
  intros Hg. exists []. split; [by apply expand_seen|].
  split; [done|]. split; [done|]. by intros [].
Qed.

Lemma defined_guard_suppresses_header_witness :
  ∃ its,
    expand Sample.sample_ext {[ThreadCommissioner_h]}
    = Some ({[ThreadCommissioner_h]}, its) ∧
    its = [] ∧
    headers_of its = [] ∧
    ∀ lang, declarations lang its = Some [].
Proof.
  apply (defined_guard_suppresses_header Sample.sample_ext
           {[ThreadCommissioner_h]}).
  by apply elem_of_singleton.
Defined.

(** X2.  The header defines one macro, its guard, and undefines none: a
    macro that the external headers leave alone is defined after the
    inclusion exactly when it was defined before or is the guard. *)
Theorem defines_only_its_guard ext m x :
  preserves ext x →
  ∃ m' its,
    expand ext m = Some (m', its) ∧
    (x ∈ m' ↔ x ∈ m ∨ x = ThreadCommissioner_h).
Proof.
  intros Hx. destruct (decide (ThreadCommissioner_h ∈ m)) as [Hg|Hg].
  - rewrite expand_seen by done. eexists _, _. split; [reflexivity|].
    split; [by left | intros [H| ->]; done].
  - rewrite expand_fresh by done. eexists _, _. split; [reflexivity|].
    unfold after_includes. rewrite foldl_ext_preserved by done.
    rewrite elem_of_union, elem_of_singleton. tauto.
Qed.

Lemma defines_only_its_guard_witness :
  ∃ m' its,
    expand Sample.sample_ext {[Variants.config_macro]} = Some (m', its) ∧
    (Variants.config_macro ∈ m' ↔
     Variants.config_macro ∈ ({[Variants.config_macro]} : gset string)
     ∨ Variants.config_macro = ThreadCommissioner_h).
Proof.
  apply (defines_only_its_guard Sample.sample_ext
           {[Variants.config_macro]} Variants.config_macro).
  apply sample_preserves. intros h E. discriminate E.
Defined.

(** X3.  The two [#ifdef __cplusplus] groups always agree, whatever the
    external headers do to the macros: the opening and the closing line of
    the linkage block are kept together or dropped together.  So, where no
    word of the code lines is defined as a macro, the code the header emits
    parses in the language the macros show once the header is done, to at
    most one declaration, which has C linkage and no body; it is empty
    exactly on a repeated inclusion. *)
Theorem linkage_block_balanced ext m :
  (ThreadCommissioner_h ∉ m → plain_code ext m) →
  ∃ m' its ds,
    expand ext m = Some (m', its) ∧
    (∀ replace, leaves_plain_lines replace →
                expand_replacing ext replace m = Some (m', its)) ∧
    declarations (language_of m') its = Some ds ∧
    Forall (λ d, d_linkage d = LinkC ∧ d_has_body d = false) ds ∧
    (ds = [] ↔ ThreadCommissioner_h ∈ m) ∧
    (length ds ≤ 1)%nat.
Proof.
  intros Hplain.
  assert (Hrep : ∀ replace, leaves_plain_lines replace →
                 expand_replacing ext replace m = expand ext m)
    by (intros replace Hlaw; by apply expand_replacing_plain).
  destruct (decide (ThreadCommissioner_h ∈ m)) as [Hg|Hg].
  - rewrite expand_seen in * by done. exists m, [], [].
    split; [done|]. split; [done|].
    split; [by destruct (language_of m)|].
    split; [constructor|]. split; [done|]. simpl. lia.
  - rewrite expand_fresh in * by done.
    eexists _, _, _. split; [reflexivity|]. split; [done|].
    split; [apply own_declarations|].
    split; [by repeat constructor|].
    split; [split; [discriminate | done] | simpl; lia].
Qed.

Lemma linkage_block_balanced_witness :
  ∃ m' its ds,
    expand Sample.sample_ext (predefined LangCxx) = Some (m', its) ∧
    (∀ replace, leaves_plain_lines replace →
                expand_replacing Sample.sample_ext replace
                  (predefined LangCxx) = Some (m', its)) ∧
    declarations (language_of m') its = Some ds ∧
    Forall (λ d, d_linkage d = LinkC ∧ d_has_body d = false) ds ∧
    (ds = [] ↔ ThreadCommissioner_h ∈ predefined LangCxx) ∧
    (length ds ≤ 1)%nat.
Proof.
  apply (linkage_block_balanced Sample.sample_ext (predefined LangCxx)).
  intros _. apply sample_plain.
Defined.



(** X5.  Without [__cplusplus], and with no word of the code lines defined
    as a macro, the header emits the bare prototype; read as C++ it then
    has C++ linkage and names the mangled symbol, not the library's.  The C
    linkage in C++ comes from the block alone. *)
Theorem cxx_unit_without_cplusplus_mangled ext mangle m :
  preserves ext __cplusplus →
  ThreadCommissioner_h ∉ m → __cplusplus ∉ m → plain_code ext m →
  ∃ m' its d,
    expand ext m = Some (m', its) ∧
    (∀ replace, leaves_plain_lines replace →
                expand_replacing ext replace m = Some (m', its)) ∧
    declarations LangCxx its = Some [d] ∧
    d_linkage d = LinkCxx ∧
    symbol mangle d = mangle Spec.prototype_in_words.
Proof.
  intros Hp Hg Hc Hplain.
  assert (Hf : fits LangC m) by (split; [done | discriminate]).
  exists (after_includes ext m), (own_items LangC),
         (mk_decl Spec.prototype_in_words false LinkCxx).
  split; [by apply expand_first|].
  split; [intros replace Hlaw; rewrite expand_replacing_plain by done;
          by apply expand_first|].
  split; [apply bare_in_cxx | done].
Qed.

Lemma cxx_unit_without_cplusplus_mangled_witness :
  ∃ m' its d,
    expand Sample.sample_ext ∅ = Some (m', its) ∧
    (∀ replace, leaves_plain_lines replace →
                expand_replacing Sample.sample_ext replace ∅
                = Some (m', its)) ∧
    declarations LangCxx its = Some [d] ∧
    d_linkage d = LinkCxx ∧
    symbol Sample.sample_mangle d
    = Sample.sample_mangle Spec.prototype_in_words.
Proof.
  apply (cxx_unit_without_cplusplus_mangled Sample.sample_ext
           Sample.sample_mangle ∅).
  - apply sample_preserves_cplusplus.
  - apply not_elem_of_empty.
  - apply not_elem_of_empty.
  - apply (sample_plain LangC).
Defined.

(** X6.  The prototype's other type name is in scope as well: every code
    line the header emits that mentions [mbedtls_ssl_context] comes after
    [<mbedtls/ssl.h>], for every macro environment and every behaviour of
    the external headers, and with macro replacement every code line,
    whatever it has become, does; on a first inclusion with no word of the
    code lines defined as a macro there is a line that mentions it. *)
Theorem context_type_declared_before_use ext m :
  ∃ m' its,
    expand ext m = Some (m', its) ∧
    (∀ pre ts post,
       its = pre ++ Src ts :: post →
       TWord "mbedtls_ssl_context" ∈ ts →
       Hdr "mbedtls/ssl.h" ∈ pre) ∧
    (∀ replace, ∃ m2 its2,
       expand_replacing ext replace m = Some (m2, its2) ∧
       ∀ pre ts post, its2 = pre ++ Src ts :: post →
                      Hdr "mbedtls/ssl.h" ∈ pre) ∧
    (ThreadCommissioner_h ∉ m → plain_code ext m →
     ∃ ts, Src ts ∈ its ∧ TWord "mbedtls_ssl_context" ∈ ts).
Proof.
  assert (Hrep : ∀ replace, ∃ m2 its2,
    expand_replacing ext replace m = Some (m2, its2) ∧
    ∀ pre ts post, its2 = pre ++ Src ts :: post →
                   Hdr "mbedtls/ssl.h" ∈ pre).
  { intros replace. apply expand_replacing_ordered.
    by apply (list_elem_of_lookup_2 _ 0). }
  destruct (decide (ThreadCommissioner_h ∈ m)) as [Hg|Hg].
  - rewrite expand_seen by done. eexists _, _. split; [reflexivity|].
    split; [|by split]. intros pre ts post Heq. by destruct pre.
  - rewrite expand_fresh by done. eexists _, _. split; [reflexivity|].
    split; [|split; [done|]].
    + intros pre ts post Heq Hw.
      destruct (declared_before_sound "mbedtls/ssl.h" "mbedtls_ssl_context"
                  _ false (own_items_context_declared_before _)
                  pre ts post Heq Hw)
        as [Hf|Hin]; [discriminate Hf | done].
    + intros _ _. apply own_items_mention_context.
Qed.

Lemma context_type_declared_before_use_witness :
  ∃ m' its,
    expand Sample.sample_ext ∅ = Some (m', its) ∧
    (∀ pre ts post,
       its = pre ++ Src ts :: post →
       TWord "mbedtls_ssl_context" ∈ ts →
       Hdr "mbedtls/ssl.h" ∈ pre) ∧
    (∀ replace, ∃ m2 its2,
       expand_replacing Sample.sample_ext replace ∅ = Some (m2, its2) ∧
       ∀ pre ts post, its2 = pre ++ Src ts :: post →
                      Hdr "mbedtls/ssl.h" ∈ pre) ∧
    (ThreadCommissioner_h ∉ (∅ : gset string) →
     plain_code Sample.sample_ext ∅ →
     ∃ ts, Src ts ∈ its ∧ TWord "mbedtls_ssl_context" ∈ ts).
Proof.
  apply (context_type_declared_before_use Sample.sample_ext ∅).
Defined.

(** X7.  The guard is defined before the first external header is
    entered, so every external header is handled with the guard defined:
    two toolchains that agree wherever the guard is defined give the same
    expansion, provided the first does not undefine the guard.  A header
    that includes this one back finds it already seen. *)
Theorem externals_see_guard ext ext' m :
  preserves ext ThreadCommissioner_h →
  (∀ h m0, ThreadCommissioner_h ∈ m0 → ext' h m0 = ext h m0) →
  expand ext' m = expand ext m.
Proof.
  intros Hp Hagree. destruct (decide (ThreadCommissioner_h ∈ m)) as [Hg|Hg].
  - by rewrite !expand_seen.
  - rewrite !expand_fresh by done. unfold after_includes.
    rewrite (foldl_ext_agree ext ext'); [done..|].
    apply elem_of_union. left. by apply elem_of_singleton.
Qed.

Lemma externals_see_guard_witness :
  expand Variants.guarded_ext ∅ = expand Sample.sample_ext ∅.
Proof.
  apply (externals_see_guard Sample.sample_ext Variants.guarded_ext ∅).
  - apply sample_preserves_guard.
  - intros h m0 Hg. unfold Variants.guarded_ext, defined.
    by rewrite bool_decide_eq_true_2.
Defined.

(** X8.  Macros that name a word of its code lines apart, what the header
    emits depends on two macros only, [ThreadCommissioner_h] and
    [__cplusplus]: two units in which no code word is a macro and that
    agree on these two get the same items, whatever else they define and
    whatever the external headers do to other macros. *)
Theorem items_depend_on_two_macros ext1 ext2 m1 m2 :
  preserves ext1 __cplusplus → preserves ext2 __cplusplus →
  plain_code ext1 m1 → plain_code ext2 m2 →
  (ThreadCommissioner_h ∈ m1 ↔ ThreadCommissioner_h ∈ m2) →
  (__cplusplus ∈ m1 ↔ __cplusplus ∈ m2) →
  snd <$> expand ext1 m1 = snd <$> expand ext2 m2 ∧
  ∀ replace1 replace2,
    leaves_plain_lines replace1 → leaves_plain_lines replace2 →
    snd <$> expand_replacing ext1 replace1 m1
    = snd <$> expand_replacing ext2 replace2 m2.
Proof.
  intros Hp1 Hp2 Hplain1 Hplain2 Hg Hc.
  assert (Hsame : snd <$> expand ext1 m1 = snd <$> expand ext2 m2);
    [|split; [done|]; intros r1 r2 Hl1 Hl2;
      by rewrite !expand_replacing_plain by done].
  destruct (decide (ThreadCommissioner_h ∈ m1)) as [Hg1|Hg1].
  - rewrite !expand_seen by (done || by apply Hg). done.
  - assert (Hg2 : ThreadCommissioner_h ∉ m2) by (by rewrite <- Hg).
    assert (Hf1 : fits (language_of m1) m1) by apply fits_language_of.
    assert (Hf2 : fits (language_of m1) m2)
      by (unfold fits; rewrite <- Hc; apply fits_language_of).
    rewrite (expand_first ext1 (language_of m1)) by assumption.
    rewrite (expand_first ext2 (language_of m1)) by assumption.
    cbn [fmap option_fmap option_map snd]. reflexivity.
Qed.

Lemma items_depend_on_two_macros_witness :
  snd <$> expand Sample.sample_ext {[Variants.config_macro]}
  = snd <$> expand (λ _ m, m) ∅ ∧
  ∀ replace1 replace2,
    leaves_plain_lines replace1 → leaves_plain_lines replace2 →
    snd <$> expand_replacing Sample.sample_ext replace1
              {[Variants.config_macro]}
    = snd <$> expand_replacing (λ _ m, m) replace2 ∅.
Proof.
  apply (items_depend_on_two_macros Sample.sample_ext (λ _ m, m)
           {[Variants.config_macro]} ∅).
  - apply sample_preserves_cplusplus.
  - by intros h m.
  - apply sample_plain_config.
  - apply bare_plain.
  - split; intros H; [apply elem_of_singleton in H; discriminate H
                     | by apply not_elem_of_empty in H].
  - split; intros H; [apply elem_of_singleton in H; discriminate H
                     | by apply not_elem_of_empty in H].
Defined.

(** X9.  However often a unit includes the header, it ends up with exactly
    one declaration from it: [n + 1] inclusions in a row from a unit that
    has not seen the header, and in which no word of the code lines is
    defined as a macro, leave the single declaration of
    [mbedtls_ssl_set_hs_ecjpake_password], with C linkage. *)
Theorem repeated_inclusion_one_declaration ext lang m n :
  preserves ext ThreadCommissioner_h → preserves ext __cplusplus →
  fits lang m → ThreadCommissioner_h ∉ m → plain_code ext m →
  ∃ st,
    include_times ext (S n) (mk_tu m []) = Some st ∧
    (∀ replace, leaves_plain_lines replace →
                include_times_replacing ext replace (S n) (mk_tu m [])
                = Some st) ∧
    declarations lang (tu_items st)
    = Some [mk_decl Spec.prototype_in_words false LinkC].
Proof.
  intros Hpg Hpc Hf Hg Hplain.
  assert (Hrep : ∀ replace, leaves_plain_lines replace →
            include_times_replacing ext replace (S n) (mk_tu m [])
            = include_times ext (S n) (mk_tu m []))
    by (intros replace Hlaw; by apply include_times_replacing_plain).
  revert Hrep. cbn [include_times]. intros Hrep.
  rewrite include_header_unfold. cbn [tu_macros tu_items].
  rewrite (expand_first ext lang) by done. cbn [mbind option_bind].
  rewrite include_times_again
    by (cbn [tu_macros]; by apply after_includes_guard).
  rewrite include_header_unfold in Hrep. cbn [tu_macros tu_items] in Hrep.
  rewrite (expand_first ext lang) in Hrep by done.
  cbn [mbind option_bind] in Hrep.
  rewrite include_times_again in Hrep
    by (cbn [tu_macros]; by apply after_includes_guard).
  eexists. split; [reflexivity|]. split; [exact Hrep|].
  cbn [tu_items app]. apply own_declarations.
Qed.

Lemma repeated_inclusion_one_declaration_witness :
  ∃ st,
    include_times Sample.sample_ext 3 (mk_tu (predefined LangCxx) [])
    = Some st ∧
    (∀ replace, leaves_plain_lines replace →
                include_times_replacing Sample.sample_ext replace 3
                  (mk_tu (predefined LangCxx) [])
                = Some st) ∧
    declarations LangCxx (tu_items st)
    = Some [mk_decl Spec.prototype_in_words false LinkC].
Proof.
  apply (repeated_inclusion_one_declaration Sample.sample_ext LangCxx
           (predefined LangCxx) 2).
  - apply sample_preserves_guard.
  - apply sample_preserves_cplusplus.
  - apply fits_predefined.
  - apply guard_not_predefined.
  - apply sample_plain.
Defined.
